(** * A shallow embedding of siteperf (package siteperf: finder.go, css.go)

    Go [int] is a 64-bit two's complement integer: it is modelled as [Z]
    with the wrap-around of addition written out ([int_add]).  Go strings
    are byte strings: they are modelled as [String.string] (a list of
    8-bit [ascii] characters).  Go maps are stdpp [gmap]s. *)

From Stdlib Require Import String Ascii ZArith Sorted Permutation.
From stdpp Require Import base gmap strings list.

Open Scope Z_scope.

Module Siteperf.

(** ** Go [int] arithmetic *)

Definition int_wrap (z : Z) : Z := (z + 2^63) mod 2^64 - 2^63.

Definition int_add (a b : Z) : Z := int_wrap (a + b).

(** ** Generic helpers of finder.go *)

(** [filter] (finder.go): keeps the elements for which [fn] holds, in
    order; a nil slice stays nil, which as a list is the empty list. *)
Definition filter {E : Type} (s : list E) (fn : E -> bool) : list E :=
  List.filter fn s.

(** [deref] (finder.go): the zero value for a nil pointer.  A [*string]
    is an [option string]; the zero value of [string] is the empty string. *)
Definition deref (v : option string) : string :=
  match v with
  | None => ""
  | Some s => s
  end.

(** [usedClass] (finder.go). *)
Record usedClass := mkUsedClass { class : string; count : Z }.

(** The zero value of [usedClass], returned by a missing map lookup. *)
Definition zeroUsedClass : usedClass := mkUsedClass "" 0.

(** ** Usage aggregation (findUsed, finder.go lines 161-172)

    [tmp[class.class] = usedClass{class.class, tmp[class.class].count + class.count}] *)
Definition aggregate_step (tmp : gmap string usedClass) (c : usedClass)
  : gmap string usedClass :=
  <[ class c := mkUsedClass (class c)
                  (int_add (count (default zeroUsedClass (tmp !! class c))) (count c)) ]> tmp.

(** [for class := range classChan { ... }] starting from an empty map. *)
Definition aggregate (obs : list usedClass) : gmap string usedClass :=
  fold_left aggregate_step obs ∅.

(** [out]: the values of [tmp], in the map's iteration order. *)
Definition table_values (tmp : gmap string usedClass) : list usedClass :=
  map snd (map_to_list tmp).

(** The sum of the counts observed for class [k], and whether [k] was
    observed at all. *)
Definition class_sum (k : string) (obs : list usedClass) : Z :=
  fold_right (fun o acc => if String.eqb (class o) k then count o + acc else acc) 0 obs.

Definition has_class (k : string) (obs : list usedClass) : bool :=
  existsb (fun o => String.eqb (class o) k) obs.

(** ** Unused-class resolution (FindUnused, finder.go lines 61-65) *)
Definition resolve (classes : list string) (used : list usedClass) : list string :=
  filter classes (fun s =>
    negb (existsb (fun uc => String.eqb (class uc) s && Z.ltb 0 (count uc)) used)).

(** The resolver as the spec states it: the classes of [R] whose lookup in
    the usage table is absent or zero, in the order of [R]. *)
Definition unused_spec (R : list string) (U : gmap string usedClass) : list string :=
  List.filter (fun c => match U !! c with
                        | None => true
                        | Some uc => Z.eqb (count uc) 0
                        end) R.

(** A usage table is keyed by its entries' class names. *)
Definition well_keyed (U : gmap string usedClass) : Prop :=
  map_Forall (fun k uc => class uc = k) U.

(** ** strings.Split on a single space, and strings.TrimSpace *)

Definition space : ascii := " "%char.

(** [strings.Split(s, sep)] with [sep] the one-space string: the pieces
    between the separators; [n] separators give [n+1] pieces, and the
    empty string splits into one empty piece. *)
Fixpoint split_space (s : string) : list string :=
  match s with
  | EmptyString => [""%string]
  | String c rest =>
      let parts := split_space rest in
      if Ascii.eqb c space then ""%string :: parts
      else match parts with
           | p :: ps => String c p :: ps
           | [] => [String c EmptyString]
           end
  end.

Definition byte (n : nat) : ascii := ascii_of_nat n.

Definition is_ascii_space (c : ascii) : bool :=
  let n := nat_of_ascii c in
  (Nat.eqb n 9 || Nat.eqb n 10 || Nat.eqb n 11 || Nat.eqb n 12 || Nat.eqb n 13
   || Nat.eqb n 32)%bool.

(** [strings.TrimSpace(s)] is empty: every rune of [s] satisfies
    [unicode.IsSpace].  Besides the ASCII white space these are U+0085,
    U+00A0 (UTF-8: C2 85, C2 A0), U+1680 (E1 9A 80), U+2000..U+200A
    (E2 80 80..8A), U+2028, U+2029, U+202F (E2 80 A8, A9, AF), U+205F
    (E2 81 9F) and U+3000 (E3 80 80).  Any other byte, including an
    invalid UTF-8 byte (decoded as U+FFFD), is not a space. *)
Fixpoint only_space (s : string) : bool :=
  match s with
  | EmptyString => true
  | String c rest =>
      if is_ascii_space c then only_space rest else
      let n := nat_of_ascii c in
      if Nat.eqb n 194 then
        match rest with
        | String d rest' =>
            let m := nat_of_ascii d in
            ((Nat.eqb m 133 || Nat.eqb m 160) && only_space rest')%bool
        | EmptyString => false
        end
      else if Nat.eqb n 225 then
        match rest with
        | String d (String e rest') =>
            (Nat.eqb (nat_of_ascii d) 154 && Nat.eqb (nat_of_ascii e) 128
             && only_space rest')%bool
        | _ => false
        end
      else if Nat.eqb n 226 then
        match rest with
        | String d (String e rest') =>
            let m := nat_of_ascii d in
            let k := nat_of_ascii e in
            (((Nat.eqb m 128 && (Nat.leb 128 k && Nat.leb k 138
                                 || Nat.eqb k 168 || Nat.eqb k 169 || Nat.eqb k 175))
              || (Nat.eqb m 129 && Nat.eqb k 159))
             && only_space rest')%bool
        | _ => false
        end
      else if Nat.eqb n 227 then
        match rest with
        | String d (String e rest') =>
            (Nat.eqb (nat_of_ascii d) 128 && Nat.eqb (nat_of_ascii e) 128
             && only_space rest')%bool
        | _ => false
        end
      else false
  end.

(** The tokens of one class attribute value (finder.go lines 227-228):
    split [deref(rawClass)] on the one-space string, then keep the pieces
    whose [strings.TrimSpace] is not empty. *)
Definition class_tokens (raw : option string) : list string :=
  filter (split_space (deref raw)) (fun s => negb (only_space s)).

(** ** The rendering collaborator (go-rod)

    [el.Attribute(name)] returns a string pointer and an error: an error, a nil
    pointer (attribute missing) or a value. *)
Inductive attr_result :=
| AttrErr
| AttrNil
| AttrVal (s : string).

Definition attr_ptr (a : attr_result) : option string :=
  match a with
  | AttrVal s => Some s
  | _ => None
  end.

(** ** extractClasses (finder.go lines 212-244)

    [page.Elements("[class]")] is [None] on error, otherwise the
    [class] attribute results of the matched elements in document order.
    [found[class]++] counts every token; [out] lists the entries of
    [found] in the map's iteration order. *)
Definition count_tokens (found : gmap string Z) (toks : list string) : gmap string Z :=
  fold_left (fun m t => <[ t := int_add (default 0 (m !! t)) 1 ]> m) toks found.

(** One iteration of the loop over the elements (lines 220-233). *)
Definition extractClasses_elem (found : gmap string Z) (a : attr_result) : gmap string Z :=
  match a with
  | AttrErr => found   (* logged, element skipped *)
  | _ => count_tokens found (class_tokens (attr_ptr a))
  end.

Definition extractClasses_found (elements : list attr_result) : gmap string Z :=
  fold_left extractClasses_elem elements ∅.

Definition extractClasses (elements : option (list attr_result))
  : option (list usedClass) :=
  match elements with
  | None => None
  | Some els =>
      Some (map (fun '(k, n) => mkUsedClass k n)
                (map_to_list (extractClasses_found els)))
  end.

(** The class tokens of a page's elements in document order: an element
    whose attribute read fails contributes none. *)
Definition page_tokens (elements : list attr_result) : list string :=
  concat (map (fun a => match a with
                        | AttrErr => []
                        | _ => class_tokens (attr_ptr a)
                        end) elements).

(** ** net/url

    A model of [url.Parse]: the fragment is cut at the first '#', a
    string with a control byte is rejected, the scheme is read and
    lowercased ([getScheme]; a leading ':' is an error), the query is cut
    at the first '?', a scheme followed by no '/' gives an opaque URL, a
    scheme-less reference whose first segment holds a ':' is rejected, and
    a leading "//" introduces the authority, whose host follows the last
    '@'.  Percent-decoding of the path and the validity checks on host and
    user info are not modelled. *)
Record url := mkURL {
  Scheme : string; Opaque : string; Host : string; Path : string;
  RawQuery : string; Fragment : string }.

Definition is_letter (c : ascii) : bool :=
  let n := nat_of_ascii c in
  ((Nat.leb 65 n && Nat.leb n 90) || (Nat.leb 97 n && Nat.leb n 122))%bool.

Definition is_digit (c : ascii) : bool :=
  let n := nat_of_ascii c in (Nat.leb 48 n && Nat.leb n 57)%bool.

Definition is_ctl (c : ascii) : bool :=
  let n := nat_of_ascii c in (Nat.ltb n 32 || Nat.eqb n 127)%bool.

Fixpoint has_ctl (s : string) : bool :=
  match s with
  | EmptyString => false
  | String c r => (is_ctl c || has_ctl r)%bool
  end.

Fixpoint contains (c : ascii) (s : string) : bool :=
  match s with
  | EmptyString => false
  | String d r => (Ascii.eqb d c || contains c r)%bool
  end.

(** [strings.Cut(s, sep)] for a one-byte separator. *)
Fixpoint cut (c : ascii) (s : string) : string * option string :=
  match s with
  | EmptyString => (EmptyString, None)
  | String d r =>
      if Ascii.eqb d c then (EmptyString, Some r)
      else let '(b, a) := cut c r in (String d b, a)
  end.

Definition cut_before (c : ascii) (s : string) : string := fst (cut c s).
Definition cut_after (c : ascii) (s : string) : string := default EmptyString (snd (cut c s)).

(** The text after the last occurrence of [c], if any. *)
Fixpoint after_last (c : ascii) (s : string) : option string :=
  match s with
  | EmptyString => None
  | String d r =>
      match after_last c r with
      | Some x => Some x
      | None => if Ascii.eqb d c then Some r else None
      end
  end.

Definition lower_char (c : ascii) : ascii :=
  let n := nat_of_ascii c in
  if (Nat.leb 65 n && Nat.leb n 90)%bool then ascii_of_nat (n + 32) else c.

Fixpoint to_lower (s : string) : string :=
  match s with
  | EmptyString => EmptyString
  | String c r => String (lower_char c) (to_lower r)
  end.

Inductive scheme_res :=
| NoScheme
| SchemeErr
| SchemeOk (scheme rest : string).

Definition scheme_cons (c : ascii) (r : scheme_res) : scheme_res :=
  match r with
  | SchemeOk a b => SchemeOk (String c a) b
  | x => x
  end.

(** [getScheme]: [first] holds at index 0. *)
Fixpoint getScheme (first : bool) (s : string) : scheme_res :=
  match s with
  | EmptyString => NoScheme
  | String c r =>
      if is_letter c then scheme_cons c (getScheme false r)
      else if (is_digit c || Ascii.eqb c "+" || Ascii.eqb c "-" || Ascii.eqb c ".")%bool
      then (if first then NoScheme else scheme_cons c (getScheme false r))
      else if Ascii.eqb c ":" then (if first then SchemeErr else SchemeOk EmptyString r)
      else NoScheme
  end.

Definition starts_with (p s : string) : bool := String.prefix p s.

Definition parse (rawURL : string) : option url :=
  if has_ctl rawURL then None else
  match rawURL with
  | EmptyString => Some (mkURL "" "" "" "" "" "")
  | _ =>
    let sr := match getScheme true rawURL with
              | SchemeErr => None
              | NoScheme => Some (EmptyString, rawURL)
              | SchemeOk sch r => Some (to_lower sch, r)
              end in
    match sr with
    | None => None
    | Some (sch, rest0) =>
      let '(rest, q) := cut "?" rest0 in
      let query := default EmptyString q in
      if negb (starts_with "/" rest) then
        if negb (String.eqb sch "") then Some (mkURL sch rest "" "" query "")
        else if contains ":" (cut_before "/" rest) then None
        else Some (mkURL sch "" "" rest query "")
      else if (starts_with "//" rest
               && (negb (String.eqb sch "") || negb (starts_with "///" rest)))%bool
      then
        let r2 := substring 2 (String.length rest) rest in
        let '(authority, p) := cut "/" r2 in
        let path := match p with Some x => String "/" x | None => EmptyString end in
        let host := match after_last "@" authority with
                    | Some h => h
                    | None => authority
                    end in
        Some (mkURL sch "" host path query "")
      else Some (mkURL sch "" "" rest query "")
    end
  end.

(** [url.Parse]: the fragment is cut off first. *)
Definition url_Parse (rawURL : string) : option url :=
  let '(u, frag) := cut "#" rawURL in
  match parse u with
  | None => None
  | Some r => Some (mkURL (Scheme r) (Opaque r) (Host r) (Path r) (RawQuery r)
                          (default EmptyString frag))
  end.

(** ** Finder and findLinks (finder.go lines 177-210) *)
Record Finder := mkFinder { rootURL : url; pageLimit : Z }.

(** What the browser shows for one URL: whether [browser.MustPage]
    navigates without error (go-rod's Must functions panic on error),
    whether [WaitLoad] and [WaitStable] succeed, and the results of
    [page.Elements("[class]")] and [page.Elements("a[href]")] with the
    attribute lookups of their elements. *)
Record page := mkPage {
  nav_ok : bool; load_ok : bool; stable_ok : bool;
  class_elems : option (list attr_result);
  link_elems : option (list attr_result) }.

(** One iteration of the loop over the links: [visited.has],
    [visited.count] and [visited.add] on the set of visited paths. *)
Definition findLinks_step (f : Finder) (acc : list url * gset string) (a : attr_result)
  : list url * gset string :=
  let '(out, visited) := acc in
  match a with
  | AttrErr => acc   (* logged, link skipped *)
  | _ =>
    match url_Parse (deref (attr_ptr a)) with
    | None => acc    (* logged, link skipped *)
    | Some to =>
        if negb (String.eqb (Host to) (Host (rootURL f))) then acc
        else if (bool_decide (Path to ∈ visited)
                 || (Z.ltb 0 (pageLimit f) && Z.leb (pageLimit f) (Z.of_nat (size visited))))%bool
        then acc
        else (out ++ [to], {[ Path to ]} ∪ visited)
    end
  end.

Definition findLinks (f : Finder) (p : page) (visited : gset string)
  : option (list url * gset string) :=
  match link_elems p with
  | None => None   (* get links error *)
  | Some links => Some (fold_left (findLinks_step f) links ([], visited))
  end.


(** ** findUsed (finder.go lines 75-175)

    A schedule of the workers: [EvRecv] lets a worker receive the next
    queued URL and process it; [EvCancel] is the context firing, which
    makes every worker return.  An empty queue makes every worker time
    out.  In both cases the [WaitGroup] releases, [classChan] is closed and
    [findUsed] returns the entries of [tmp].  Each page visit runs to
    completion before the next one starts: the schedules are the
    interleavings of the workers in which their page visits (and so the
    separately locked [has], [count] and [add] calls of [findLinks] on the
    shared [visitedPages]) do not overlap. *)
Inductive event := EvRecv | EvCancel.

Record crawl := mkCrawl {
  queue : list url; visited : gset string;
  tmp : gmap string usedClass; loaded : list url }.

Inductive step_res := Panic | Cont (st : crawl).

(** A worker processes [pageUrl] (lines 111-148). *)
Definition visit (f : Finder) (site : url -> page) (st : crawl) (pageUrl : url)
  (rest : list url) : step_res :=
  let p := site pageUrl in
  if negb (nav_ok p) then Panic else
  let st1 := mkCrawl rest (visited st) (tmp st) (loaded st ++ [pageUrl]) in
  if negb (load_ok p) then Cont st1 else
  if negb (stable_ok p) then Cont st1 else
  match extractClasses (class_elems p) with
  | None => Cont st1
  | Some pageClasses =>
    match findLinks f p (visited st) with
    | None => Cont st1
    | Some (links, vis') =>
        Cont (mkCrawl (rest ++ links) vis'
                      (fold_left aggregate_step pageClasses (tmp st))
                      (loaded st1))
    end
  end.

Fixpoint run (f : Finder) (site : url -> page) (evs : list event) (st : crawl)
  : option crawl :=
  match evs with
  | [] => Some st
  | EvCancel :: _ => Some st
  | EvRecv :: evs' =>
      match queue st with
      | [] => Some st
      | u :: rest =>
          match visit f site st u rest with
          | Panic => None
          | Cont st' => run f site evs' st'
          end
      end
  end.

Definition init_crawl (f : Finder) : crawl := mkCrawl [rootURL f] ∅ ∅ [].

Definition error := string.

(** [findUsed]: [None] is a panic (of [MustConnect] when [browser_ok] is
    false, or of [MustPage]); otherwise the slice and the error. *)
Definition findUsed (f : Finder) (browser_ok : bool) (site : url -> page)
  (evs : list event) : option (list usedClass * option error) :=
  if negb browser_ok then None else
  match run f site evs (init_crawl f) with
  | None => None
  | Some st => Some (table_values (tmp st), None)
  end.

(** [FindUnused] (finder.go lines 55-68). *)
Definition FindUnused (f : Finder) (browser_ok : bool) (site : url -> page)
  (evs : list event) (classes : list string) : option (list string * option error) :=
  match findUsed f browser_ok site evs with
  | None => None
  | Some (_, Some err) => Some ([], Some ("find used classes: " ++ err)%string)
  | Some (used, None) => Some (resolve classes used, None)
  end.

(** ** css.go *)

Definition is_class_char (c : ascii) : bool :=
  (is_letter c || is_digit c || Ascii.eqb c "_" || Ascii.eqb c "-")%bool.

(** The matcher of [\.[a-zA-Z0-9_-]+] scanning left to right: [Out] looks
    for a dot, [AfterDot] has just read the dot, [InMatch acc] has read the
    dot and the class characters [acc] (reversed). *)
Inductive scan_state := Out | AfterDot | InMatch (acc : list ascii).

Definition match_of (acc : list ascii) : string :=
  String "." (string_of_list_ascii (rev acc)).

Fixpoint scan (st : scan_state) (s : string) : list string :=
  match s with
  | EmptyString =>
      match st with InMatch acc => [match_of acc] | _ => [] end
  | String c r =>
      match st with
      | Out => if Ascii.eqb c "." then scan AfterDot r else scan Out r
      | AfterDot =>
          if is_class_char c then scan (InMatch [c]) r
          else if Ascii.eqb c "." then scan AfterDot r
          else scan Out r
      | InMatch acc =>
          if is_class_char c then scan (InMatch (c :: acc)) r
          else match_of acc ::
                 (if Ascii.eqb c "." then scan AfterDot r else scan Out r)
      end
  end.

(** [re.FindAllStringSubmatch(css, -1)], keeping [match[0]]. *)
Definition FindAll (css : string) : list string := scan Out css.

(** [validClassRE]: [^(?:[a-zA-Z_][a-zA-Z0-9_-]*$)]. *)
Definition isValidClass (name : string) : bool :=
  match name with
  | EmptyString => false
  | String c r =>
      ((is_letter c || Ascii.eqb c "_")
       && forallb is_class_char (list_ascii_of_string r))%bool
  end.

(** [unique] (css.go): first occurrences, in order. *)
Fixpoint unique_aux (seen : gset string) (s : list string) : list string :=
  match s with
  | [] => []
  | e :: r => if bool_decide (e ∈ seen) then unique_aux seen r
              else e :: unique_aux ({[ e ]} ∪ seen) r
  end.

Definition unique (s : list string) : list string := unique_aux ∅ s.

(** [slices.Sort] on strings orders them bytewise; the sorted
    permutation of a list under a total order is unique, so it is
    computed here by insertion. *)
Fixpoint insert_sorted (x : string) (l : list string) : list string :=
  match l with
  | [] => [x]
  | y :: r => if String.leb x y then x :: y :: r else y :: insert_sorted x r
  end.

Fixpoint sort (l : list string) : list string :=
  match l with
  | [] => []
  | x :: r => insert_sorted x (sort r)
  end.

(** The order [slices.Sort] sorts by. *)
Definition str_le (a b : string) : Prop := String.leb a b = true.

(** [ExtractClasses] (css.go lines 17-35). *)
Definition ExtractClasses (css : string) : list string * option error :=
  let classes := map (fun m => substring 1 (String.length m - 1) m) (FindAll css) in
  let classes := filter classes isValidClass in
  let classes := unique classes in
  (sort classes, None).

(** [ExtractClassesFromFile] (css.go lines 9-15); [readFile] is
    [os.ReadFile]. *)
Definition ExtractClassesFromFile (readFile : string -> error + string) (path : string)
  : list string * option error :=
  match readFile path with
  | inl err => ([], Some err)
  | inr bytes => ExtractClasses bytes
  end.

(** ** cmd/find-unused-css (main.go) *)

(** [strings.TrimPrefix]. *)
Definition trim_prefix (prefix s : string) : string :=
  if String.prefix prefix s
  then substring (String.length prefix) (String.length s - String.length prefix) s
  else s.

(** The normalisation of the [-url] flag (main.go lines 29-33). *)
Definition normalize_root (raw : string) : string :=
  if String.prefix "https://" raw then raw
  else ("https://" ++ trim_prefix "http://" (trim_prefix "https://" raw))%string.

Definition newline : string := String (byte 10) EmptyString.

(** The bytes [writeOutfile] (main.go lines 70-88) writes when every
    call succeeds: one [WriteString("." + name + newline)] per name. *)
Fixpoint outfile_content (unused : list string) : string :=
  match unused with
  | [] => EmptyString
  | name :: rest => ("." ++ name ++ newline ++ outfile_content rest)%string
  end.

(** ** The colly engine (src/unnamed/part_001)

    The aggregating goroutine of [findUsed] (lines 78-86): a class seen for
    the first time is appended to [classes]; [classCount[class]++]. *)
Definition colly_step (acc : list string * gmap string Z) (c : string)
  : list string * gmap string Z :=
  let '(classes, classCount) := acc in
  let n := default 0 (classCount !! c) in
  ((if Z.eqb n 0 then classes ++ [c] else classes),
   <[ c := int_add n 1 ]> classCount).

(** The stream of class names sent on [classChan], aggregated, then sent
    as [usedClass{class, classCount[class]}] in the order of [classes]
    (lines 145-156) and collected by [drain] (lines 174-180). *)
Definition colly_used (stream : list string) : list usedClass :=
  let '(classes, classCount) := fold_left colly_step stream ([], ∅) in
  map (fun c => mkUsedClass c (default 0 (classCount !! c))) classes.

(** The number of occurrences of [k] in a stream of class names. *)
Definition occurrences (k : string) (stream : list string) : nat :=
  length (List.filter (String.eqb k) stream).




End Siteperf.

Module SiteperfFacts.
Import Siteperf.

(** ** The resolver *)

Lemma used_exists_iff (U : gmap string usedClass) (s : string) :
  well_keyed U ->
  existsb (fun uc => String.eqb (class uc) s && Z.ltb 0 (count uc)) (table_values U)
  = match U !! s with None => false | Some uc => Z.ltb 0 (count uc) end.
Proof.
  intros Hk.
  destruct (existsb _ _) eqn:E.
  - apply existsb_exists in E as [uc [Hin Huc]].
    apply andb_true_iff in Huc as [Hc Hpos].
    apply String.eqb_eq in Hc.
    unfold table_values in Hin. apply in_map_iff in Hin as [[k v] [Hv Hin]].
    simpl in Hv; subst v.
    apply list_elem_of_In, elem_of_map_to_list in Hin.
    pose proof (Hk _ _ Hin) as Hck. simpl in Hck.
    assert (Hs : U !! s = Some uc) by congruence. rewrite Hs. symmetry. exact Hpos.
  - destruct (U !! s) as [uc|] eqn:Hs; [|reflexivity].
    destruct (Z.ltb 0 (count uc)) eqn:Hpos; [|reflexivity].
    exfalso. rewrite <- (Bool.not_true_iff_false) in E. apply E.
    apply existsb_exists. exists uc. split.
    + unfold table_values. apply in_map_iff. exists (s, uc). split; [reflexivity|].
      apply list_elem_of_In, elem_of_map_to_list. exact Hs.
    + rewrite (Hk _ _ Hs). rewrite String.eqb_refl. exact Hpos.
Qed.

(** C1: for every aggregated usage table [U] (keyed by class name, with
    non-negative counts) and every reference list [R], the resolution step
    of [FindUnused] returns exactly the classes of [R] that are absent from
    [U] or have count 0, in the order of [R]. *)
Theorem resolve_unused_exact (R : list string) (U : gmap string usedClass)
  (Hkeys : well_keyed U) (Hnonneg : map_Forall (fun _ uc => 0 <= count uc) U) :
  resolve R (table_values U) = unused_spec R U.
Proof.
  unfold resolve, unused_spec, filter.
  induction R as [|c R IH]; simpl; [reflexivity|].
  rewrite (used_exists_iff U c Hkeys), IH.
  destruct (U !! c) as [uc|] eqn:Hc; simpl; [|reflexivity].
  pose proof (Hnonneg _ _ Hc) as Hn. simpl in Hn.
  destruct (Z.ltb_spec 0 (count uc)), (Z.eqb_spec (count uc) 0); simpl;
    try reflexivity; lia.
Qed.

Lemma resolve_unused_exact_witness :
  well_keyed (<["btn" := mkUsedClass "btn" 2]> (<["x" := mkUsedClass "x" 0]> ∅))
  /\ map_Forall (fun _ uc => 0 <= count uc)
       (<["btn" := mkUsedClass "btn" 2]> (<["x" := mkUsedClass "x" 0]> ∅ : gmap string usedClass))
  /\ resolve ["btn"; "x"; "unused-one"]
       (table_values (<["btn" := mkUsedClass "btn" 2]> (<["x" := mkUsedClass "x" 0]> ∅)))
     = unused_spec ["btn"; "x"; "unused-one"]
         (<["btn" := mkUsedClass "btn" 2]> (<["x" := mkUsedClass "x" 0]> ∅)).
Proof.
  assert (Hk : well_keyed (<["btn" := mkUsedClass "btn" 2]> (<["x" := mkUsedClass "x" 0]> ∅))).
  { unfold well_keyed. apply map_Forall_insert_2; [reflexivity|].
    apply map_Forall_insert_2; [reflexivity|]. apply map_Forall_empty. }
  assert (Hn : map_Forall (fun _ uc => 0 <= count uc)
       (<["btn" := mkUsedClass "btn" 2]> (<["x" := mkUsedClass "x" 0]> ∅ : gmap string usedClass))).
  { apply map_Forall_insert_2; [simpl; lia|].
    apply map_Forall_insert_2; [simpl; lia|]. apply map_Forall_empty. }
  split; [exact Hk|]. split; [exact Hn|].
  apply (resolve_unused_exact _ _ Hk Hn).
Defined.

(** ** Aggregation *)

Lemma int_wrap_add_l (a b : Z) : int_wrap (int_wrap a + b) = int_wrap (a + b).
Proof.
  unfold int_wrap.
  replace ((a + 2 ^ 63) mod 2 ^ 64 - 2 ^ 63 + b + 2 ^ 63)
    with ((a + 2 ^ 63) mod 2 ^ 64 + b) by ring.
  rewrite Zplus_mod_idemp_l.
  f_equal. f_equal. ring.
Qed.

Lemma int_wrap_small (z : Z) : -2^63 <= z < 2^63 -> int_wrap z = z.
Proof.
  intros H. unfold int_wrap.
  rewrite Z.mod_small by lia. ring.
Qed.

Lemma class_sum_no_class (k : string) (obs : list usedClass) :
  has_class k obs = false -> class_sum k obs = 0.
Proof.
  induction obs as [|o obs IH]; simpl; [reflexivity|].
  intros H. apply orb_false_iff in H as [H1 H2]. rewrite H1. auto.
Qed.

Lemma aggregate_lookup_from (obs : list usedClass) (tmp : gmap string usedClass) (k : string) :
  fold_left aggregate_step obs tmp !! k =
  if has_class k obs
  then Some (mkUsedClass k (int_wrap (count (default zeroUsedClass (tmp !! k)) + class_sum k obs)))
  else tmp !! k.
Proof.
  revert tmp. induction obs as [|o obs IH]; intros tmp; simpl; [reflexivity|].
  rewrite IH.
  change (has_class k (o :: obs)) with (String.eqb (class o) k || has_class k obs)%bool.
  change (class_sum k (o :: obs))
    with (if String.eqb (class o) k then count o + class_sum k obs else class_sum k obs).
  destruct (String.eqb (class o) k) eqn:E; simpl.
  - apply String.eqb_eq in E. subst k. unfold aggregate_step. rewrite lookup_insert_eq. simpl.
    unfold int_add.
    destruct (has_class (class o) obs) eqn:Hh.
    + rewrite int_wrap_add_l. do 3 f_equal. ring.
    + rewrite (class_sum_no_class _ _ Hh). do 3 f_equal. ring.
  - apply String.eqb_neq in E.
    unfold aggregate_step. rewrite lookup_insert_ne by congruence.
    reflexivity.
Qed.

Lemma aggregate_lookup (obs : list usedClass) (k : string) :
  aggregate obs !! k =
  if has_class k obs then Some (mkUsedClass k (int_wrap (class_sum k obs))) else None.
Proof.
  unfold aggregate. rewrite aggregate_lookup_from. rewrite lookup_empty. reflexivity.
Qed.

Lemma has_class_perm (k : string) (obs obs' : list usedClass) :
  Permutation obs obs' -> has_class k obs = has_class k obs'.
Proof.
  intros P. unfold has_class. induction P; simpl.
  - reflexivity.
  - rewrite IHP. reflexivity.
  - rewrite !orb_assoc, (orb_comm (String.eqb (class y) k)). reflexivity.
  - congruence.
Qed.

Lemma class_sum_perm (k : string) (obs obs' : list usedClass) :
  Permutation obs obs' -> class_sum k obs = class_sum k obs'.
Proof.
  intros P. unfold class_sum. induction P; simpl.
  - reflexivity.
  - rewrite IHP. reflexivity.
  - destruct (String.eqb (class y) k), (String.eqb (class x) k); ring.
  - congruence.
Qed.

Lemma aggregate_perm (obs obs' : list usedClass) :
  Permutation obs obs' -> aggregate obs' = aggregate obs.
Proof.
  intros P. apply map_eq. intros k.
  rewrite !aggregate_lookup, (has_class_perm k _ _ P), (class_sum_perm k _ _ P).
  reflexivity.
Qed.

(** C4: for every multiset of per-page observations, the aggregated count
    of a class is the sum of its per-page counts (as long as that sum is a
    Go [int]), and every injection order gives the same usage table. *)
Theorem aggregate_sum_order_independent (obs obs' : list usedClass) (k : string)
  (Hperm : Permutation obs obs') (Hrange : -2^63 <= class_sum k obs < 2^63) :
  aggregate obs !! k =
    (if has_class k obs then Some (mkUsedClass k (class_sum k obs)) else None)
  /\ aggregate obs' = aggregate obs.
Proof.
  split.
  - rewrite aggregate_lookup, int_wrap_small by exact Hrange. reflexivity.
  - exact (aggregate_perm _ _ Hperm).
Qed.

Lemma aggregate_sum_order_independent_witness :
  Permutation [mkUsedClass "btn" 1; mkUsedClass "btn-primary" 1; mkUsedClass "btn" 1]
              [mkUsedClass "btn" 1; mkUsedClass "btn" 1; mkUsedClass "btn-primary" 1]
  /\ -2^63 <= class_sum "btn" [mkUsedClass "btn" 1; mkUsedClass "btn-primary" 1; mkUsedClass "btn" 1] < 2^63
  /\ aggregate [mkUsedClass "btn" 1; mkUsedClass "btn-primary" 1; mkUsedClass "btn" 1] !! "btn"
       = Some (mkUsedClass "btn" 2)
  /\ aggregate [mkUsedClass "btn" 1; mkUsedClass "btn" 1; mkUsedClass "btn-primary" 1]
     = aggregate [mkUsedClass "btn" 1; mkUsedClass "btn-primary" 1; mkUsedClass "btn" 1].
Proof.
  assert (P : Permutation [mkUsedClass "btn" 1; mkUsedClass "btn-primary" 1; mkUsedClass "btn" 1]
              [mkUsedClass "btn" 1; mkUsedClass "btn" 1; mkUsedClass "btn-primary" 1]).
  { apply perm_skip. apply perm_swap. }
  assert (B : -2^63 <= class_sum "btn" [mkUsedClass "btn" 1; mkUsedClass "btn-primary" 1; mkUsedClass "btn" 1] < 2^63).
  { unfold class_sum; simpl; lia. }
  destruct (aggregate_sum_order_independent _ _ "btn" P B) as [H1 H2].
  split; [exact P|]. split; [exact B|]. split; [|exact H2].
  rewrite H1. reflexivity.
Defined.

(** ** ExtractClasses *)

Lemma insert_sorted_perm (x : string) (l : list string) :
  Permutation (insert_sorted x l) (x :: l).
Proof.
  induction l as [|y r IH]; simpl; [reflexivity|].
  destruct (String.leb x y); [reflexivity|].
  etransitivity; [apply perm_skip, IH|]. apply perm_swap.
Qed.

Lemma sort_perm (l : list string) : Permutation (sort l) l.
Proof.
  induction l as [|x r IH]; simpl; [reflexivity|].
  etransitivity; [apply insert_sorted_perm|]. apply perm_skip, IH.
Qed.

Lemma insert_sorted_hd (x y : string) (l : list string) :
  HdRel str_le y l -> str_le y x -> HdRel str_le y (insert_sorted x l).
Proof.
  intros Hl Hyx. destruct l as [|z r]; simpl.
  - constructor. exact Hyx.
  - destruct (String.leb x z); constructor; [exact Hyx|]. inversion Hl; assumption.
Qed.

Lemma insert_sorted_sorted (x : string) (l : list string) :
  Sorted str_le l -> Sorted str_le (insert_sorted x l).
Proof.
  induction l as [|y r IH]; intros Hs; simpl.
  - repeat constructor.
  - destruct (String.leb x y) eqn:Hxy.
    + constructor; [exact Hs|]. constructor. exact Hxy.
    + apply Sorted_inv in Hs as [Hr Hhd]. constructor; [exact (IH Hr)|].
      apply insert_sorted_hd; [exact Hhd|].
      unfold str_le. destruct (String.leb_total x y) as [H|H]; [congruence|exact H].
Qed.

Lemma sort_sorted (l : list string) : Sorted str_le (sort l).
Proof.
  induction l as [|x r IH]; simpl; [constructor|]. apply insert_sorted_sorted, IH.
Qed.

Lemma unique_aux_spec (seen : gset string) (l : list string) :
  NoDup (unique_aux seen l)
  /\ forall x, In x (unique_aux seen l) -> (x ∉ seen) /\ In x l.
Proof.
  revert seen. induction l as [|e r IH]; intros seen; simpl.
  - split; [constructor|]. intros x [].
  - case_bool_decide as He.
    + destruct (IH seen) as [Hnd Hin]. split; [exact Hnd|].
      intros x Hx. destruct (Hin x Hx) as [H1 H2]. split; [exact H1|right; exact H2].
    + destruct (IH ({[e]} ∪ seen)) as [Hnd Hin]. split.
      * constructor; [|exact Hnd].
        intros Hx. apply list_elem_of_In in Hx. destruct (Hin e Hx) as [H1 _]. apply H1. set_solver.
      * intros x [<-|Hx]; [split; [exact He|left; reflexivity]|].
        destruct (Hin x Hx) as [H1 H2]. split; [set_solver|right; exact H2].
Qed.

(** C3: for every CSS input, [ExtractClasses] returns a sorted list
    without duplicates whose entries all match [[a-zA-Z_][a-zA-Z0-9_-]*]
    and so never start with a dot. *)
Theorem ExtractClasses_sorted_unique_valid (css : string) :
  let r := fst (ExtractClasses css) in
  Sorted str_le r
  /\ NoDup r
  /\ Forall (fun c => isValidClass c = true) r
  /\ Forall (fun c => forall rest, c <> String "." rest) r.
Proof.
  simpl. set (l := filter _ isValidClass).
  assert (Hval : Forall (fun c => isValidClass c = true) (sort (unique l))).
  { apply Forall_forall. intros x Hx. apply list_elem_of_In in Hx.
    apply (Permutation_in _ (sort_perm _)) in Hx.
    apply (unique_aux_spec ∅ l) in Hx as [_ Hx].
    unfold l, filter in Hx. apply filter_In in Hx as [_ Hx]. exact Hx. }
  split; [apply sort_sorted|]. split.
  { rewrite (sort_perm (unique l)). apply (unique_aux_spec ∅ l). }
  split; [exact Hval|].
  apply (Forall_impl _ _ _ Hval).
  intros c Hc rest ->. simpl in Hc. discriminate Hc.
Qed.

(** C10: [ExtractClasses] never fails, and the only error
    [ExtractClassesFromFile] returns is the error of reading the file. *)
Theorem ExtractClasses_never_fails :
  (forall css, snd (ExtractClasses css) = None)
  /\ (forall (readFile : string -> error + string) path err,
        snd (ExtractClassesFromFile readFile path) = Some err -> readFile path = inl err).
Proof.
  split.
  - intros css. reflexivity.
  - intros readFile path err. unfold ExtractClassesFromFile.
    destruct (readFile path) as [e|bytes]; simpl.
    + intros H. congruence.
    + intros H. discriminate H.
Qed.

Example ExtractClasses_example :
  ExtractClasses ".btn-primary, .btn:hover .unused-one .9x .btn{}" =
  (["btn"; "btn-primary"; "unused-one"], None).
Proof. vm_compute. reflexivity. Qed.

(** ** Attributes and class tokens *)

(** C9: a missing attribute (a nil pointer) is read by [deref] as the
    empty string: a class-bearing element without a value is processed
    exactly like an empty class attribute, which adds no observation, and
    a link without an href is processed exactly like an empty href. *)
Theorem missing_attribute_is_empty_string :
  deref None = ""%string
  /\ class_tokens (attr_ptr AttrNil) = []
  /\ (forall found, extractClasses_elem found AttrNil = extractClasses_elem found (AttrVal "")
                    /\ extractClasses_elem found (AttrVal "") = found)
  /\ (forall f acc, findLinks_step f acc AttrNil = findLinks_step f acc (AttrVal "")).
Proof.
  split; [reflexivity|]. split; [reflexivity|]. split.
  - intros found. split; reflexivity.
  - intros f [out vis]. reflexivity.
Qed.

(** ** findLinks *)

Lemma findLinks_step_cases (f : Finder) (out : list url) (vis : gset string) (a : attr_result) :
  findLinks_step f (out, vis) a = (out, vis)
  \/ exists to, a <> AttrErr /\ url_Parse (deref (attr_ptr a)) = Some to
       /\ Host to = Host (rootURL f)
       /\ findLinks_step f (out, vis) a = (out ++ [to], {[ Path to ]} ∪ vis).
Proof.
  unfold findLinks_step.
  destruct a as [| |h]; [left; reflexivity| |];
  (destruct (url_Parse _) as [to|] eqn:Hp; [|left; reflexivity]);
  (destruct (String.eqb_spec (Host to) (Host (rootURL f))) as [Hh|Hh]; simpl; [|left; reflexivity]);
  (destruct (_ || _)%bool; [left; reflexivity|]);
  right; exists to; repeat split; try assumption; discriminate.
Qed.

Lemma findLinks_step_adds (f : Finder) (out : list url) (vis : gset string) (a : attr_result) (u : url) :
  pageLimit f <= 0 -> a <> AttrErr -> url_Parse (deref (attr_ptr a)) = Some u ->
  Host u = Host (rootURL f) -> Path u ∈ snd (findLinks_step f (out, vis) a).
Proof.
  intros Hl Ha Hp Hh. unfold findLinks_step.
  assert (Hd : match a with AttrErr => (out, vis) | _ => match url_Parse (deref (attr_ptr a)) with
     | Some to => if negb (String.eqb (Host to) (Host (rootURL f))) then (out, vis)
                  else if (bool_decide (Path to ∈ vis) || (Z.ltb 0 (pageLimit f)
                           && Z.leb (pageLimit f) (Z.of_nat (size vis))))%bool
                  then (out, vis) else (out ++ [to], {[ Path to ]} ∪ vis)
     | None => (out, vis) end end
   = match url_Parse (deref (attr_ptr a)) with
     | Some to => if negb (String.eqb (Host to) (Host (rootURL f))) then (out, vis)
                  else if (bool_decide (Path to ∈ vis) || (Z.ltb 0 (pageLimit f)
                           && Z.leb (pageLimit f) (Z.of_nat (size vis))))%bool
                  then (out, vis) else (out ++ [to], {[ Path to ]} ∪ vis)
     | None => (out, vis) end).
  { destruct a; [congruence|reflexivity|reflexivity]. }
  rewrite Hd, Hp, Hh, String.eqb_refl. simpl.
  destruct (Z.ltb_spec 0 (pageLimit f)); [lia|]. rewrite andb_false_l, orb_false_r.
  case_bool_decide; simpl; set_solver.
Qed.

Lemma findLinks_fold_mono (f : Finder) (links : list attr_result) (out : list url) (vis : gset string) :
  (exists ext, fst (fold_left (findLinks_step f) links (out, vis)) = out ++ ext)
  /\ vis ⊆ snd (fold_left (findLinks_step f) links (out, vis)).
Proof.
  revert out vis. induction links as [|a links IH]; intros out vis; cbn [fold_left fst snd].
  - split; [exists []; rewrite app_nil_r; reflexivity|set_solver].
  - destruct (findLinks_step_cases f out vis a) as [E|[to [_ [_ [_ E]]]]]; rewrite E.
    + apply IH.
    + destruct (IH (out ++ [to]) ({[Path to]} ∪ vis)) as [[ext Hext] Hs].
      split; [exists ([to] ++ ext); rewrite Hext, app_assoc; reflexivity|set_solver].
Qed.

Lemma findLinks_fold_visited (f : Finder) (links : list attr_result) (out : list url) (vis : gset string) :
  forall x, x ∈ snd (fold_left (findLinks_step f) links (out, vis)) ->
    x ∈ vis \/ exists u, In u (fst (fold_left (findLinks_step f) links (out, vis))) /\ Path u = x.
Proof.
  revert out vis. induction links as [|a links IH]; intros out vis x Hx; cbn [fold_left fst snd] in *.
  - left. exact Hx.
  - destruct (findLinks_step_cases f out vis a) as [E|[to [_ [_ [_ E]]]]]; rewrite E in *.
    + apply IH, Hx.
    + destruct (IH _ _ x Hx) as [Hv|Hu]; [|right; exact Hu].
      apply elem_of_union in Hv as [Hv|Hv]; [|left; exact Hv].
      apply elem_of_singleton in Hv. subst x. right. exists to. split; [|reflexivity].
      destruct (findLinks_fold_mono f links (out ++ [to]) ({[Path to]} ∪ vis)) as [[ext ->] _].
      apply in_or_app. left. apply in_or_app. right. left. reflexivity.
Qed.

Lemma findLinks_fold_out (f : Finder) (links : list attr_result) (out : list url) (vis : gset string) :
  forall u, In u (fst (fold_left (findLinks_step f) links (out, vis))) ->
    In u out \/ (Host u = Host (rootURL f)
                 /\ exists a, In a links /\ a <> AttrErr /\ url_Parse (deref (attr_ptr a)) = Some u).
Proof.
  revert out vis. induction links as [|a links IH]; intros out vis u Hu; cbn [fold_left fst snd In] in *.
  - left. exact Hu.
  - destruct (findLinks_step_cases f out vis a) as [E|[to [Ha [Hp [Hh E]]]]]; rewrite E in *.
    + destruct (IH _ _ u Hu) as [H|[H1 [b [Hb H2]]]]; [left; exact H|].
      right. split; [exact H1|]. exists b. split; [right; exact Hb|exact H2].
    + destruct (IH _ _ u Hu) as [H|[H1 [b [Hb H2]]]].
      * apply in_app_or in H as [H|[H|[]]]; [left; exact H|].
        subst u. right. split; [exact Hh|]. exists a. split; [left; reflexivity|split; assumption].
      * right. split; [exact H1|]. exists b. split; [right; exact Hb|exact H2].
Qed.

Lemma findLinks_fold_adds (f : Finder) (links : list attr_result) (out : list url) (vis : gset string)
  (a : attr_result) (u : url) :
  pageLimit f <= 0 -> In a links -> a <> AttrErr -> url_Parse (deref (attr_ptr a)) = Some u ->
  Host u = Host (rootURL f) -> Path u ∈ snd (fold_left (findLinks_step f) links (out, vis)).
Proof.
  intros Hl Hin Ha Hp Hh. revert out vis.
  induction links as [|b links IH]; intros out vis; cbn [fold_left In] in *; [destruct Hin|].
  destruct Hin as [->|Hin].
  - pose proof (findLinks_step_adds f out vis a u Hl Ha Hp Hh) as Hs.
    destruct (findLinks_step f (out, vis) a) as [out' vis'] eqn:E.
    destruct (findLinks_fold_mono f links out' vis') as [_ Hsub]. simpl in Hs. set_solver.
  - destruct (findLinks_step f (out, vis) b) as [out' vis']. apply IH, Hin.
Qed.

(** X2: [findLinks] enqueues only hrefs whose
    [url.Parse] result has the root URL's [Host] (so a relative href,
    whose parsed [Host] is empty, is not followed), and with no page
    limit every such href has its path visited afterwards, either before
    the call or through a link enqueued by it. *)
Theorem findLinks_same_host_exact (f : Finder) (p : page) (vis : gset string)
  (links : list attr_result) (out : list url) (vis' : gset string)
  (Hlinks : link_elems p = Some links) (Hres : findLinks f p vis = Some (out, vis')) :
  (forall u, In u out -> Host u = Host (rootURL f)
     /\ exists a, In a links /\ a <> AttrErr /\ url_Parse (deref (attr_ptr a)) = Some u)
  /\ (pageLimit f <= 0 -> forall a u, In a links -> a <> AttrErr ->
        url_Parse (deref (attr_ptr a)) = Some u -> Host u = Host (rootURL f) ->
        Path u ∈ vis \/ exists u', In u' out /\ Path u' = Path u).
Proof.
  unfold findLinks in Hres. rewrite Hlinks in Hres. injection Hres as Hres.
  split.
  - intros u Hu.
    assert (Hu' : In u (fst (fold_left (findLinks_step f) links ([], vis)))) by (rewrite Hres; exact Hu).
    destruct (findLinks_fold_out f links [] vis u Hu') as [[]|H]. exact H.
  - intros Hl a u Ha Hna Hp Hh.
    pose proof (findLinks_fold_adds f links [] vis a u Hl Ha Hna Hp Hh) as Hv.
    destruct (findLinks_fold_visited f links [] vis _ Hv) as [H|[u' [Hu' He]]];
      [left; exact H|].
    right. exists u'. rewrite Hres in Hu'. split; [exact Hu'|exact He].
Qed.

Lemma findLinks_same_host_exact_witness :
  let f := mkFinder (mkURL "http" "" "h" "/" "" "") 0 in
  let links := [AttrVal "http://h/a"; AttrVal "/about"; AttrVal "http://other/x"; AttrNil] in
  let p := mkPage true true true (Some []) (Some links) in
  link_elems p = Some links
  /\ findLinks f p ∅ = Some ([mkURL "http" "" "h" "/a" "" ""], {[ "/a"%string ]} ∪ ∅)
  /\ ((forall u, In u [mkURL "http" "" "h" "/a" "" ""] -> Host u = Host (rootURL f)
       /\ exists a, In a links /\ a <> AttrErr /\ url_Parse (deref (attr_ptr a)) = Some u)
      /\ (pageLimit f <= 0 -> forall a u, In a links -> a <> AttrErr ->
           url_Parse (deref (attr_ptr a)) = Some u -> Host u = Host (rootURL f) ->
           Path u ∈ (∅ : gset string)
           \/ exists u', In u' [mkURL "http" "" "h" "/a" "" ""] /\ Path u' = Path u)).
Proof.
  intros f links p.
  assert (H1 : link_elems p = Some links) by reflexivity.
  assert (H2 : findLinks f p ∅ = Some ([mkURL "http" "" "h" "/a" "" ""], {[ "/a"%string ]} ∪ ∅))
    by (vm_compute; reflexivity).
  split; [exact H1|]. split; [exact H2|].
  exact (findLinks_same_host_exact f p ∅ links _ _ H1 H2).
Defined.


(** ** The crawl *)

(** C2 (code): with [pageLimit = 1] the crawl of a root page linking to
    two same-host pages loads the root page and one linked page: the
    root's own path is never recorded in the visited set, so the budget
    admits one more page than the limit. *)
Theorem pageLimit_one_loads_two_pages :
  let root := mkURL "http" "" "h" "/" "" "" in
  let f := mkFinder root 1 in
  let site := fun u : url =>
    if String.eqb (Path u) "/"
    then mkPage true true true (Some []) (Some [AttrVal "http://h/a"; AttrVal "http://h/b"])
    else mkPage true true true (Some []) (Some []) in
  option_map loaded (run f site [EvRecv; EvRecv; EvRecv] (init_crawl f))
    = Some [root; mkURL "http" "" "h" "/a" "" ""]
  /\ option_map (fun st => size (visited st)) (run f site [EvRecv; EvRecv; EvRecv] (init_crawl f))
    = Some 1%nat.
Proof. split; vm_compute; reflexivity. Qed.

Lemma run_cancel (f : Finder) (site : url -> page) (evs1 evs2 : list event) (st : crawl) :
  run f site (evs1 ++ EvCancel :: evs2) st = run f site evs1 st.
Proof.
  revert st. induction evs1 as [|e evs1 IH]; intros st; [reflexivity|].
  destruct e; simpl; [|reflexivity].
  destruct (queue st) as [|u rest]; [reflexivity|].
  destruct (visit f site st u rest); [reflexivity|apply IH].
Qed.

(** C7 (as the code has it): when the context is cancelled after the
    worker steps [evs1], whatever the schedule would have done next,
    [FindUnused] resolves the reference classes against the usage table
    aggregated so far and returns them with a nil error. *)
Theorem cancelled_crawl_resolves_partial_table (f : Finder) (site : url -> page)
  (evs1 evs2 : list event) (classes : list string) :
  FindUnused f true site (evs1 ++ EvCancel :: evs2) classes
  = match run f site evs1 (init_crawl f) with
    | None => None
    | Some st => Some (resolve classes (table_values (tmp st)), None)
    end.
Proof.
  unfold FindUnused, findUsed. simpl. rewrite run_cancel.
  destruct (run f site evs1 (init_crawl f)); reflexivity.
Qed.

(** C7 as stated fails: the context fires while the page /a, which uses
    [btn], is still queued; [FindUnused] still returns a result without
    error, built from the partial table, and it reports [btn] unused. *)
Lemma cancelled_crawl_still_returns_result :
  let root := mkURL "http" "" "h" "/" "" "" in
  let f := mkFinder root 0 in
  let site := fun u : url =>
    if String.eqb (Path u) "/"
    then mkPage true true true (Some []) (Some [AttrVal "http://h/a"])
    else mkPage true true true (Some [AttrVal "btn"]) (Some []) in
  option_map queue (run f site [EvRecv] (init_crawl f)) = Some [mkURL "http" "" "h" "/a" "" ""]
  /\ FindUnused f true site [EvRecv; EvCancel] ["btn"; "x"] = Some (["btn"; "x"], None)
  /\ FindUnused f true site [EvRecv; EvRecv] ["btn"; "x"] = Some (["x"], None).
Proof. split; [|split]; vm_compute; reflexivity. Qed.

(** C8 (code): a page whose navigation fails makes [browser.MustPage]
    panic, which ends the whole crawl and [FindUnused] returns nothing,
    whereas a page whose [WaitLoad] fails is skipped and the crawl
    goes on. *)
Theorem navigation_failure_aborts_crawl :
  let root := mkURL "http" "" "h" "/" "" "" in
  let f := mkFinder root 0 in
  let site (nav load : bool) := fun u : url =>
    if String.eqb (Path u) "/"
    then mkPage true true true (Some [AttrVal "btn"])
                (Some [AttrVal "http://h/report.pdf"; AttrVal "http://h/b"])
    else if String.eqb (Path u) "/report.pdf"
    then mkPage nav load true (Some []) (Some [])
    else mkPage true true true (Some [AttrVal "x"]) (Some []) in
  FindUnused f true (site false true) [EvRecv; EvRecv; EvRecv; EvRecv] ["btn"; "x"; "y"] = None
  /\ FindUnused f true (site true false) [EvRecv; EvRecv; EvRecv; EvRecv] ["btn"; "x"; "y"]
     = Some (["y"], None).
Proof. split; vm_compute; reflexivity. Qed.

(** ** Extra properties: the visited set and the page budget *)

Lemma findLinks_step_cases_fresh (f : Finder) (out : list url) (vis : gset string) (a : attr_result) :
  findLinks_step f (out, vis) a = (out, vis)
  \/ exists to, (Path to ∉ vis)
       /\ (0 < pageLimit f -> Z.of_nat (size vis) < pageLimit f)
       /\ findLinks_step f (out, vis) a = (out ++ [to], {[ Path to ]} ∪ vis).
Proof.
  unfold findLinks_step.
  destruct a as [| |h]; [left; reflexivity| |];
  (destruct (url_Parse _) as [to|]; [|left; reflexivity]);
  (destruct (negb _); [left; reflexivity|]);
  (destruct (bool_decide (Path to ∈ vis)) eqn:Hv; [left; reflexivity|]);
  (destruct (Z.ltb_spec 0 (pageLimit f)); [destruct (Z.leb_spec (pageLimit f) (Z.of_nat (size vis)))|]);
  simpl; try (left; reflexivity);
  right; exists to; (split; [apply bool_decide_eq_false in Hv; exact Hv|]);
  split; try reflexivity; intros; lia.
Qed.

Lemma findLinks_fold_size (f : Finder) (links : list attr_result) (out : list url) (vis : gset string) :
  (size (snd (fold_left (findLinks_step f) links (out, vis))) + length out
   = size vis + length (fst (fold_left (findLinks_step f) links (out, vis))))%nat
  /\ (0 < pageLimit f -> Z.of_nat (size vis) <= pageLimit f ->
      Z.of_nat (size (snd (fold_left (findLinks_step f) links (out, vis)))) <= pageLimit f).
Proof.
  revert out vis. induction links as [|a links IH]; intros out vis;
    cbn [fold_left fst snd]; [split; [reflexivity|auto]|].
  destruct (findLinks_step_cases_fresh f out vis a) as [E|[to [Hn [Hb E]]]]; rewrite E.
  - apply IH.
  - destruct (IH (out ++ [to]) ({[Path to]} ∪ vis)) as [H1 H2].
    assert (Hs : size ({[Path to]} ∪ vis) = S (size vis)).
    { rewrite size_union by set_solver. rewrite size_singleton. reflexivity. }
    rewrite Hs, length_app in H1. simpl in H1. split; [lia|].
    intros Hp _. apply H2; [exact Hp|]. rewrite Hs. specialize (Hb Hp). lia.
Qed.

(** X1: with a positive page limit, [findLinks] never grows the visited
    set beyond [pageLimit], and it grows the set by exactly the number
    of links it returns (each returned link has a path that was not
    visited before). *)
Theorem findLinks_visited_bound (f : Finder) (p : page) (vis vis' : gset string) (out : list url)
  (Hres : findLinks f p vis = Some (out, vis')) :
  size vis' = (size vis + length out)%nat
  /\ (0 < pageLimit f -> Z.of_nat (size vis) <= pageLimit f -> Z.of_nat (size vis') <= pageLimit f).
Proof.
  unfold findLinks in Hres. destruct (link_elems p) as [links|]; [|discriminate].
  injection Hres as Hres.
  destruct (findLinks_fold_size f links [] vis) as [H1 H2].
  rewrite Hres in H1, H2. simpl in *. split; [lia|exact H2].
Qed.

Lemma findLinks_visited_bound_witness :
  findLinks (mkFinder (mkURL "http" "" "h" "/" "" "") 1)
            (mkPage true true true (Some []) (Some [AttrVal "http://h/a"; AttrVal "http://h/b"])) ∅
    = Some ([mkURL "http" "" "h" "/a" "" ""], {[ "/a"%string ]} ∪ ∅)
  /\ size ({[ "/a"%string ]} ∪ ∅ : gset string) = (size (∅ : gset string) + 1)%nat.
Proof.
  assert (H : findLinks (mkFinder (mkURL "http" "" "h" "/" "" "") 1)
            (mkPage true true true (Some []) (Some [AttrVal "http://h/a"; AttrVal "http://h/b"])) ∅
    = Some ([mkURL "http" "" "h" "/a" "" ""], {[ "/a"%string ]} ∪ ∅)) by (vm_compute; reflexivity).
  split; [exact H|]. exact (proj1 (findLinks_visited_bound _ _ _ _ _ H)).
Defined.

(** ** Extra properties: ExtractClasses and the output file *)

Lemma str_leb_trans (a b c : string) :
  String.leb a b = true -> String.leb b c = true -> String.leb a c = true.
Proof.
  revert b c. induction a as [|x a IH]; intros b c H1 H2.
  - destruct c; reflexivity.
  - destruct b as [|y b]; [discriminate H1|]. destruct c as [|z c]; [discriminate H2|].
    unfold String.leb in *. simpl in *. unfold Ascii.compare in *. revert H1 H2.
    destruct (N.compare_spec (N_of_ascii x) (N_of_ascii y)) as [E1|E1|E1];
    destruct (N.compare_spec (N_of_ascii y) (N_of_ascii z)) as [E2|E2|E2];
    destruct (N.compare_spec (N_of_ascii x) (N_of_ascii z)) as [E3|E3|E3]; intros H1 H2;
    try discriminate; try reflexivity; try lia.
    apply (IH b c); assumption.
Qed.

Lemma filter_sorted (l : list string) (fn : string -> bool) :
  Sorted str_le l -> Sorted str_le (filter l fn).
Proof.
  intros Hs. apply StronglySorted_Sorted.
  apply Sorted_StronglySorted in Hs; [|intros x y z; apply str_leb_trans].
  unfold filter. induction Hs as [|x l Hs IH Hx]; simpl; [constructor|].
  destruct (fn x); [|exact IH]. constructor; [exact IH|].
  apply Forall_forall. intros y Hy. apply list_elem_of_In, filter_In in Hy as [Hy _].
  rewrite Forall_forall in Hx. apply Hx, list_elem_of_In, Hy.
Qed.

Lemma isValidClass_inv (n : string) :
  isValidClass n = true ->
  exists c r, n = String c r /\ is_class_char c = true
              /\ forallb is_class_char (list_ascii_of_string r) = true.
Proof.
  destruct n as [|c r]; simpl; [discriminate|].
  intros H. apply andb_true_iff in H as [Hc Hr]. exists c, r. split; [reflexivity|].
  split; [|exact Hr]. unfold is_class_char. apply orb_true_iff in Hc as [Hc|Hc]; rewrite Hc;
    [reflexivity|rewrite !orb_true_r; reflexivity].
Qed.

Lemma scan_run (r : string) (acc : list ascii) (s : string) :
  forallb is_class_char (list_ascii_of_string r) = true ->
  scan (InMatch acc) (r ++ s) = scan (InMatch (rev (list_ascii_of_string r) ++ acc)) s.
Proof.
  revert acc. induction r as [|c r IH]; intros acc H; [reflexivity|].
  simpl in H. apply andb_true_iff in H as [Hc Hr].
  simpl. rewrite Hc, (IH _ Hr). simpl. rewrite <- app_assoc. reflexivity.
Qed.

Lemma match_of_run (c : ascii) (r : string) :
  match_of (rev (list_ascii_of_string r) ++ [c]) = ("." ++ String c r)%string.
Proof.
  unfold match_of. rewrite rev_app_distr, rev_involutive. simpl.
  rewrite string_of_list_ascii_of_string. reflexivity.
Qed.

Lemma scan_after_dot_valid (n post : string) :
  isValidClass n = true ->
  match post with EmptyString => True | String d _ => is_class_char d = false end ->
  scan AfterDot (n ++ post) =
    ("." ++ n)%string :: match post with
                         | EmptyString => []
                         | String d p => if Ascii.eqb d "." then scan AfterDot p else scan Out p
                         end.
Proof.
  intros Hv Hp. destruct (isValidClass_inv n Hv) as [c [r [-> [Hc Hr]]]].
  simpl. rewrite Hc, (scan_run r [c] post Hr).
  destruct post as [|d p]; simpl.
  - rewrite match_of_run. reflexivity.
  - rewrite Hp, match_of_run. reflexivity.
Qed.

Lemma FindAll_outfile (l : list string) :
  Forall (fun c => isValidClass c = true) l ->
  FindAll (outfile_content l) = map (fun n => ("." ++ n)%string) l.
Proof.
  unfold FindAll. induction l as [|n l IH]; intros Hv; [reflexivity|].
  apply Forall_cons in Hv as [Hn Hl]. simpl.
  replace ("" ++ n ++ newline ++ outfile_content l)%string
    with (n ++ String (byte 10) (outfile_content l))%string by reflexivity.
  rewrite (scan_after_dot_valid n (String (byte 10) (outfile_content l)) Hn); [|reflexivity].
  simpl. rewrite (IH Hl). reflexivity.
Qed.

Lemma substring_0_length (s : string) : substring 0 (String.length s) s = s.
Proof. induction s as [|c s IH]; simpl; [reflexivity|]. rewrite IH. reflexivity. Qed.

Lemma strip_dot (n : string) :
  substring 1 (String.length ("." ++ n) - 1) ("." ++ n) = n.
Proof.
  simpl. rewrite Nat.sub_0_r. apply substring_0_length.
Qed.

Lemma filter_all (l : list string) (fn : string -> bool) :
  Forall (fun c => fn c = true) l -> filter l fn = l.
Proof.
  unfold filter. induction l as [|x l IH]; intros H; [reflexivity|].
  apply Forall_cons in H as [Hx Hl]. simpl. rewrite Hx, (IH Hl). reflexivity.
Qed.

Lemma unique_aux_id (seen : gset string) (l : list string) :
  NoDup l -> (forall x, In x l -> x ∉ seen) -> unique_aux seen l = l.
Proof.
  revert seen. induction l as [|x l IH]; intros seen Hnd Hs; [reflexivity|].
  apply NoDup_cons in Hnd as [Hx Hnd]. simpl.
  rewrite bool_decide_eq_false_2 by (apply Hs; left; reflexivity).
  f_equal. apply IH; [exact Hnd|].
  intros y Hy. apply not_elem_of_union. split.
  - intros ->%elem_of_singleton. apply Hx, list_elem_of_In, Hy.
  - apply Hs. right. exact Hy.
Qed.

Lemma sort_id (l : list string) : Sorted str_le l -> sort l = l.
Proof.
  induction l as [|x l IH]; intros Hs; [reflexivity|].
  apply Sorted_inv in Hs as [Hl Hx]. simpl. rewrite (IH Hl).
  destruct l as [|y l]; [reflexivity|]. simpl.
  apply HdRel_inv in Hx. unfold str_le in Hx. rewrite Hx. reflexivity.
Qed.

(** X3: the file [writeOutfile] writes for a sorted list of valid class
    names without duplicates reads back through [ExtractClasses] as the
    same list. *)
Theorem outfile_roundtrip (l : list string)
  (Hs : Sorted str_le l) (Hnd : NoDup l) (Hv : Forall (fun c => isValidClass c = true) l) :
  ExtractClasses (outfile_content l) = (l, None).
Proof.
  unfold ExtractClasses. rewrite (FindAll_outfile l Hv), map_map.
  rewrite (map_ext_in _ (fun n => n)) by (intros n _; apply strip_dot).
  rewrite map_id, (filter_all _ _ Hv).
  unfold unique. rewrite (unique_aux_id ∅ l Hnd) by set_solver.
  rewrite (sort_id l Hs). reflexivity.
Qed.

Lemma outfile_roundtrip_witness :
  Sorted str_le ["btn"; "btn-primary"; "unused-one"]
  /\ NoDup ["btn"; "btn-primary"; "unused-one"]
  /\ Forall (fun c => isValidClass c = true) ["btn"; "btn-primary"; "unused-one"]
  /\ ExtractClasses (outfile_content ["btn"; "btn-primary"; "unused-one"])
     = (["btn"; "btn-primary"; "unused-one"], None).
Proof.
  assert (Hs : Sorted str_le ["btn"; "btn-primary"; "unused-one"]).
  { repeat constructor. }
  assert (Hnd : NoDup ["btn"; "btn-primary"; "unused-one"]).
  { apply NoDup_ListNoDup. repeat constructor; simpl; intuition discriminate. }
  assert (Hv : Forall (fun c => isValidClass c = true) ["btn"; "btn-primary"; "unused-one"]).
  { repeat constructor. }
  split; [exact Hs|]. split; [exact Hnd|]. split; [exact Hv|].
  exact (outfile_roundtrip _ Hs Hnd Hv).
Defined.

Lemma unique_aux_in (seen : gset string) (l : list string) (x : string) :
  In x l -> x ∉ seen -> In x (unique_aux seen l).
Proof.
  revert seen. induction l as [|e l IH]; intros seen Hx Hs; [destruct Hx|].
  simpl. destruct (String.eqb_spec e x) as [->|Hne].
  - rewrite bool_decide_eq_false_2 by exact Hs. left. reflexivity.
  - destruct Hx as [->|Hx]; [congruence|].
    case_bool_decide; [apply IH; assumption|].
    right. apply IH; [exact Hx|]. set_solver.
Qed.

(** X6: [unique] keeps every element of its input, drops no other
    element in, returns each element once, and leaves a list without
    duplicates unchanged. *)
Theorem unique_spec (l : list string) :
  (forall x, In x (unique l) <-> In x l)
  /\ NoDup (unique l)
  /\ (NoDup l -> unique l = l).
Proof.
  unfold unique. split; [|split].
  - intros x. split.
    + intros H. apply (proj2 (unique_aux_spec ∅ l) x H).
    + intros H. apply unique_aux_in; [exact H|set_solver].
  - apply (unique_aux_spec ∅ l).
  - intros Hnd. apply unique_aux_id; [exact Hnd|set_solver].
Qed.

Lemma extract_sorted_nodup_valid (css : string) :
  Sorted str_le (fst (ExtractClasses css))
  /\ NoDup (fst (ExtractClasses css))
  /\ Forall (fun c => isValidClass c = true) (fst (ExtractClasses css)).
Proof.
  simpl. set (l := filter _ isValidClass). split; [apply sort_sorted|]. split.
  - rewrite (sort_perm (unique l)). apply (unique_aux_spec ∅ l).
  - apply Forall_forall. intros x Hx. apply list_elem_of_In in Hx.
    apply (Permutation_in _ (sort_perm _)) in Hx.
    apply (unique_aux_spec ∅ l) in Hx as [_ Hx].
    unfold l, filter in Hx. apply filter_In in Hx as [_ Hx]. exact Hx.
Qed.

(** X4: the command's pipeline round-trips: whatever usage list
    [FindUnused] resolves against, its result for the classes extracted
    from a stylesheet, written by [writeOutfile], reads back through
    [ExtractClasses] as exactly that result. *)
Theorem pipeline_outfile_roundtrip (css : string) (used : list usedClass) :
  ExtractClasses (outfile_content (resolve (fst (ExtractClasses css)) used))
  = (resolve (fst (ExtractClasses css)) used, None).
Proof.
  destruct (extract_sorted_nodup_valid css) as [Hs [Hnd Hv]].
  apply outfile_roundtrip.
  - apply filter_sorted, Hs.
  - apply NoDup_ListNoDup. unfold resolve, filter. apply List.NoDup_filter, NoDup_ListNoDup, Hnd.
  - apply Forall_forall. intros x Hx. apply list_elem_of_In in Hx.
    unfold resolve, filter in Hx. apply filter_In in Hx as [Hx _].
    rewrite Forall_forall in Hv. apply Hv, list_elem_of_In, Hx.
Qed.

Lemma scan_one (st : scan_state) (c : ascii) :
  exists l st1, forall r, scan st (String c r) = l ++ scan st1 r.
Proof.
  destruct st as [| |acc].
  - destruct (Ascii.eqb c ".") eqn:E; [exists [], AfterDot|exists [], Out];
      intros r; simpl; rewrite E; reflexivity.
  - destruct (is_class_char c) eqn:E1; [exists [], (InMatch [c]); intros r; simpl; rewrite E1; reflexivity|].
    destruct (Ascii.eqb c ".") eqn:E2; [exists [], AfterDot|exists [], Out];
      intros r; simpl; rewrite E1, E2; reflexivity.
  - destruct (is_class_char c) eqn:E1; [exists [], (InMatch (c :: acc)); intros r; simpl; rewrite E1; reflexivity|].
    exists [match_of acc], (if Ascii.eqb c "." then AfterDot else Out).
    intros r. simpl. rewrite E1. destruct (Ascii.eqb c "."); reflexivity.
Qed.

Lemma scan_app (pre : string) (st : scan_state) :
  exists l st', forall rest, scan st (pre ++ rest) = l ++ scan st' rest.
Proof.
  revert st. induction pre as [|c pre IH]; intros st.
  - exists [], st. intros rest. reflexivity.
  - destruct (scan_one st c) as [l1 [st1 H1]]. destruct (IH st1) as [l2 [st2 H2]].
    exists (l1 ++ l2), st2. intros rest.
    change (String c pre ++ rest)%string with (String c (pre ++ rest)).
    rewrite H1, H2, app_assoc. reflexivity.
Qed.

Lemma scan_dot (st : scan_state) :
  exists l, forall r, scan st (String "." r) = l ++ scan AfterDot r.
Proof.
  destruct st as [| |acc]; [exists []|exists []|exists [match_of acc]]; intros r; reflexivity.
Qed.

(** X5: every valid class selector of a stylesheet is extracted: when a
    dot is followed by a valid class name that does not run on into
    another class character, [ExtractClasses] returns that name,
    whatever precedes the dot. *)
Theorem ExtractClasses_complete (pre name post : string)
  (Hv : isValidClass name = true)
  (Hpost : match post with EmptyString => True | String d _ => is_class_char d = false end) :
  In name (fst (ExtractClasses (pre ++ "." ++ name ++ post))).
Proof.
  simpl. apply (Permutation_in _ (Permutation_sym (sort_perm _))).
  apply unique_aux_in; [|set_solver].
  unfold filter. apply filter_In. split; [|exact Hv].
  apply in_map_iff. exists ("." ++ name)%string. split; [apply strip_dot|].
  unfold FindAll. destruct (scan_app pre Out) as [l1 [st1 H1]].
  destruct (scan_dot st1) as [l2 H2].
  change ("." ++ name ++ post)%string with (String "." (name ++ post)).
  rewrite H1, H2, (scan_after_dot_valid name post Hv Hpost).
  apply in_or_app. right. apply in_or_app. right. left. reflexivity.
Qed.

Lemma ExtractClasses_complete_witness :
  isValidClass "btn-primary" = true
  /\ In "btn-primary"%string (fst (ExtractClasses ("a.x, " ++ "." ++ "btn-primary" ++ ":hover{}"))).
Proof.
  split; [reflexivity|].
  apply (ExtractClasses_complete "a.x, " "btn-primary" ":hover{}"); reflexivity.
Defined.

(** ** Extra properties: the command's URL normalisation *)

Lemma prefix_app (p r : string) : String.prefix p (p ++ r) = true.
Proof.
  induction p as [|c p IH]; [destruct r; reflexivity|]. simpl.
  destruct (ascii_dec c c) as [_|n]; [exact IH|congruence].
Qed.

Lemma trim_prefix_app (p r : string) : trim_prefix p (p ++ r) = r.
Proof.
  unfold trim_prefix. rewrite prefix_app.
  induction p as [|c p IH]; simpl.
  - rewrite Nat.sub_0_r. apply substring_0_length.
  - exact IH.
Qed.

(** X7: the command always crawls an https URL: the normalised [-url]
    starts with https://, normalising twice changes nothing, an http://
    URL is upgraded to https:// with the same rest, and a URL without
    either scheme gets https:// prepended. *)
Theorem normalize_root_https (raw r : string) :
  String.prefix "https://" (normalize_root raw) = true
  /\ normalize_root (normalize_root raw) = normalize_root raw
  /\ normalize_root ("http://" ++ r) = ("https://" ++ r)%string
  /\ (String.prefix "https://" raw = false -> String.prefix "http://" raw = false ->
      normalize_root raw = ("https://" ++ raw)%string).
Proof.
  assert (H1 : forall x, String.prefix "https://" (normalize_root x) = true).
  { intros x. unfold normalize_root. destruct (String.prefix "https://" x) eqn:E;
      [exact E|apply prefix_app]. }
  split; [apply H1|]. split.
  - unfold normalize_root at 1. rewrite H1. reflexivity.
  - split.
    + unfold normalize_root. simpl String.prefix. cbv iota.
      replace (trim_prefix "https://" ("http://" ++ r)) with ("http://" ++ r)%string
        by (unfold trim_prefix; reflexivity).
      rewrite trim_prefix_app. reflexivity.
    + intros Hs Hh. unfold normalize_root, trim_prefix. rewrite Hs, Hh. reflexivity.
Qed.

(** ** Extra properties: class counts and the resolver over both engines *)

Lemma occurrences_none (k : string) (l : list string) :
  existsb (String.eqb k) l = false -> occurrences k l = 0%nat.
Proof.
  unfold occurrences. induction l as [|x l IH]; simpl; [reflexivity|].
  intros H. apply orb_false_iff in H as [H1 H2]. rewrite H1. apply IH, H2.
Qed.

Lemma occurrences_pos (k : string) (l : list string) :
  (0 < occurrences k l)%nat <-> existsb (String.eqb k) l = true.
Proof.
  unfold occurrences. induction l as [|x l IH]; simpl; [split; [lia|discriminate]|].
  destruct (String.eqb k x); simpl; [split; [reflexivity|lia]|exact IH].
Qed.

Lemma count_tokens_lookup (toks : list string) (found : gmap string Z) (k : string) :
  (forall j, 0 <= default 0 (found !! j) /\ default 0 (found !! j) + Z.of_nat (length toks) < 2^63) ->
  count_tokens found toks !! k =
    if existsb (String.eqb k) toks
    then Some (default 0 (found !! k) + Z.of_nat (occurrences k toks))
    else found !! k.
Proof.
  revert found. induction toks as [|t toks IH]; intros found Hb; [reflexivity|].
  unfold count_tokens. cbn [fold_left]. fold (count_tokens (<[t := int_add (default 0 (found !! t)) 1]> found) toks).
  assert (Ht : int_add (default 0 (found !! t)) 1 = default 0 (found !! t) + 1).
  { unfold int_add. apply int_wrap_small. specialize (Hb t). simpl in Hb. lia. }
  rewrite Ht, IH.
  2:{ intros j. destruct (String.eqb_spec t j) as [->|Hne].
      - rewrite lookup_insert_eq. simpl. specialize (Hb j). simpl in Hb. lia.
      - rewrite lookup_insert_ne by exact Hne. specialize (Hb j). simpl in Hb. lia. }
  unfold occurrences. cbn [existsb List.filter].
  destruct (String.eqb_spec k t) as [->|Hne]; simpl.
  - rewrite lookup_insert_eq. simpl.
    destruct (existsb (String.eqb t) toks) eqn:E.
    + f_equal. fold (occurrences t toks). lia.
    + fold (occurrences t toks). rewrite (occurrences_none _ _ E). f_equal; lia.
  - rewrite lookup_insert_ne by congruence. reflexivity.
Qed.

Lemma extractClasses_fold (els : list attr_result) (found : gmap string Z) :
  fold_left extractClasses_elem els found = count_tokens found (page_tokens els).
Proof.
  revert found. induction els as [|a els IH]; intros found; [reflexivity|].
  cbn [fold_left]. rewrite IH. unfold page_tokens. cbn [map concat].
  unfold count_tokens at 2. rewrite fold_left_app. destruct a; reflexivity.
Qed.

(** X11: the count [extractClasses] reports for a class on one page is
    the number of its occurrences among the class tokens of the page's
    elements (elements whose attribute cannot be read contribute none),
    and a class that occurs nowhere on the page has no entry. *)
Theorem extractClasses_counts (els : list attr_result) (k : string)
  (Hb : Z.of_nat (length (page_tokens els)) < 2^63) :
  extractClasses_found els !! k =
    if existsb (String.eqb k) (page_tokens els)
    then Some (Z.of_nat (occurrences k (page_tokens els))) else None.
Proof.
  unfold extractClasses_found. rewrite extractClasses_fold, count_tokens_lookup.
  - rewrite lookup_empty. reflexivity.
  - intros j. rewrite lookup_empty. simpl. lia.
Qed.

Lemma extractClasses_counts_witness :
  Z.of_nat (length (page_tokens [AttrVal "btn btn-primary"; AttrErr; AttrVal " btn "; AttrNil])) < 2^63
  /\ extractClasses_found [AttrVal "btn btn-primary"; AttrErr; AttrVal " btn "; AttrNil] !! "btn"%string
     = Some 2.
Proof.
  assert (H : Z.of_nat (length (page_tokens [AttrVal "btn btn-primary"; AttrErr; AttrVal " btn "; AttrNil])) < 2^63)
    by (vm_compute; reflexivity).
  split; [exact H|]. rewrite (extractClasses_counts _ "btn" H). vm_compute. reflexivity.
Defined.

Lemma class_sum_pos (k : string) (obs : list usedClass) :
  Forall (fun o => 0 < count o) obs -> has_class k obs = true -> 0 < class_sum k obs.
Proof.
  induction obs as [|o obs IH]; simpl; [discriminate|].
  intros Hp Hh. pose proof (Forall_inv Hp) as Ho. pose proof (Forall_inv_tail Hp) as Hp'.
  simpl in Ho. assert (H0 : 0 <= class_sum k obs).
  { destruct (has_class k obs) eqn:E.
    - apply Z.lt_le_incl, IH; [exact Hp'|reflexivity].
    - rewrite class_sum_no_class by exact E. lia. }
  destruct (String.eqb (class o) k); simpl in Hh; [lia|]. apply IH; [exact Hp'|exact Hh].
Qed.

Lemma aggregate_well_keyed (obs : list usedClass) : well_keyed (aggregate obs).
Proof.
  intros k uc Hk. rewrite aggregate_lookup in Hk.
  destruct (has_class k obs); [|discriminate]. injection Hk as <-. reflexivity.
Qed.

(** X9: on the table that [findUsed] aggregates from the per-page counts
    (each at least 1, as [extractClasses] produces them, with per-class
    totals that fit an [int]), [FindUnused] reports exactly the reference
    classes that no page observed, in the order of the reference list. *)
Theorem resolve_aggregate_unobserved (R : list string) (obs : list usedClass)
  (Hpos : Forall (fun o => 0 < count o) obs)
  (Hb : forall k, class_sum k obs < 2^63) :
  resolve R (table_values (aggregate obs)) = filter R (fun c => negb (has_class c obs)).
Proof.
  unfold resolve, filter. induction R as [|c R IH]; simpl; [reflexivity|].
  rewrite (used_exists_iff _ c (aggregate_well_keyed obs)), IH, aggregate_lookup.
  destruct (has_class c obs) eqn:Hh; simpl; [|reflexivity].
  pose proof (class_sum_pos c obs Hpos Hh). specialize (Hb c).
  rewrite int_wrap_small by lia. destruct (Z.ltb_spec 0 (class_sum c obs)); [reflexivity|lia].
Qed.

Lemma resolve_aggregate_unobserved_witness :
  Forall (fun o => 0 < count o) [mkUsedClass "btn" 2; mkUsedClass "nav" 1; mkUsedClass "btn" 1]
  /\ (forall k, class_sum k [mkUsedClass "btn" 2; mkUsedClass "nav" 1; mkUsedClass "btn" 1] < 2^63)
  /\ resolve ["btn"; "hero"; "nav"]
       (table_values (aggregate [mkUsedClass "btn" 2; mkUsedClass "nav" 1; mkUsedClass "btn" 1]))
     = ["hero"%string].
Proof.
  assert (Hp : Forall (fun o => 0 < count o) [mkUsedClass "btn" 2; mkUsedClass "nav" 1; mkUsedClass "btn" 1])
    by (repeat constructor).
  assert (Hb : forall k, class_sum k [mkUsedClass "btn" 2; mkUsedClass "nav" 1; mkUsedClass "btn" 1] < 2^63).
  { intros k. unfold class_sum. cbn [fold_right class count].
    destruct (String.eqb "btn" k), (String.eqb "nav" k); lia. }
  split; [exact Hp|]. split; [exact Hb|].
  rewrite (resolve_aggregate_unobserved _ _ Hp Hb). reflexivity.
Defined.

Lemma colly_fold (stream cl : list string) (cnt : gmap string Z) :
  (forall k, In k cl <-> default 0 (cnt !! k) <> 0) ->
  (forall k, 0 <= default 0 (cnt !! k) /\ default 0 (cnt !! k) + Z.of_nat (length stream) < 2^63) ->
  (forall k, In k (fst (fold_left colly_step stream (cl, cnt)))
             <-> default 0 (snd (fold_left colly_step stream (cl, cnt)) !! k) <> 0)
  /\ (forall k, default 0 (snd (fold_left colly_step stream (cl, cnt)) !! k)
                = default 0 (cnt !! k) + Z.of_nat (occurrences k stream)).
Proof.
  revert cl cnt. induction stream as [|c stream IH]; intros cl cnt Hin Hb.
  - split; [exact Hin|]. intros k. unfold occurrences. cbn [fold_left snd List.filter length Z.of_nat]. lia.
  - cbn [fold_left].
    set (n := default 0 (cnt !! c)).
    assert (Hn : int_add n 1 = n + 1).
    { unfold int_add. apply int_wrap_small. specialize (Hb c). simpl in Hb. unfold n. lia. }
    assert (Hs : colly_step (cl, cnt) c = (if Z.eqb n 0 then cl ++ [c] else cl, <[c := n + 1]> cnt)).
    { rewrite <- Hn. reflexivity. }
    rewrite Hs.
    destruct (IH (if Z.eqb n 0 then cl ++ [c] else cl) (<[c := n + 1]> cnt)) as [H1 H2].
    + intros k. destruct (String.eqb_spec c k) as [<-|Hne].
      * rewrite lookup_insert_eq. simpl. split; [intros _; specialize (Hb c); unfold n in *; lia|].
        intros _. destruct (Z.eqb_spec n 0) as [_|Hn0].
        -- apply in_or_app. right. left. reflexivity.
        -- apply Hin. exact Hn0.
      * rewrite lookup_insert_ne by exact Hne. rewrite <- Hin.
        destruct (Z.eqb n 0); [|reflexivity]. rewrite in_app_iff. simpl.
        split; [intros [H|[H|[]]]; [exact H|congruence]|intros H; left; exact H].
    + intros k. destruct (String.eqb_spec c k) as [<-|Hne].
      * rewrite lookup_insert_eq. simpl. specialize (Hb c). simpl in Hb. unfold n. lia.
      * rewrite lookup_insert_ne by exact Hne. specialize (Hb k). simpl in Hb. lia.
    + split; [exact H1|]. intros k. rewrite H2. unfold occurrences. simpl.
      destruct (String.eqb_spec k c) as [->|Hne].
      * rewrite lookup_insert_eq. simpl. unfold n. lia.
      * rewrite lookup_insert_ne by congruence. reflexivity.
Qed.

(** X8: the colly engine's [FindUnused] reports exactly the reference
    classes that occur nowhere in the stream of class tokens its OnHTML
    callback emits, in the order of the reference list, as long as the
    stream is shorter than 2^63 so that no count wraps. *)
Theorem colly_resolve_unobserved (R stream : list string)
  (Hlen : Z.of_nat (length stream) < 2^63) :
  resolve R (colly_used stream) = filter R (fun c => negb (existsb (String.eqb c) stream)).
Proof.
  destruct (colly_fold stream [] ∅) as [H1 H2].
  { intros k. rewrite lookup_empty. simpl. split; [intros []|lia]. }
  { intros k. rewrite lookup_empty. simpl. lia. }
  unfold colly_used.
  destruct (fold_left colly_step stream ([], ∅)) as [cl cnt] eqn:E. simpl in H1, H2.
  unfold resolve, filter. induction R as [|c R IH]; simpl; [reflexivity|].
  rewrite IH.
  assert (Heq : existsb (fun uc => String.eqb (class uc) c && Z.ltb 0 (count uc))
                  (map (fun c => mkUsedClass c (default 0 (cnt !! c))) cl)
                = existsb (String.eqb c) stream).
  2:{ rewrite Heq. reflexivity. }
  apply Bool.eq_iff_eq_true. rewrite existsb_exists, <- occurrences_pos.
  specialize (H2 c). rewrite lookup_empty in H2. simpl in H2. split.
  - intros [uc [Hu Hc]]. apply in_map_iff in Hu as [x [<- Hx]]. simpl in Hc.
    apply andb_true_iff in Hc as [Hc Hp]. apply String.eqb_eq in Hc. subst x.
    apply Z.ltb_lt in Hp. lia.
  - intros Hp. exists (mkUsedClass c (default 0 (cnt !! c))). split.
    + apply in_map_iff. exists c. split; [reflexivity|]. apply H1. lia.
    + simpl. rewrite String.eqb_refl. simpl. apply Z.ltb_lt. lia.
Qed.

Lemma colly_resolve_unobserved_witness :
  Z.of_nat (length ["btn"; "nav"; "btn"]%string) < 2^63
  /\ resolve ["btn"; "hero"; "nav"] (colly_used ["btn"; "nav"; "btn"]) = ["hero"%string].
Proof.
  assert (H : Z.of_nat (length ["btn"; "nav"; "btn"]%string) < 2^63) by (simpl; lia).
  split; [exact H|]. rewrite (colly_resolve_unobserved _ _ H). reflexivity.
Defined.

Lemma split_space_no_space (s p : string) :
  In p (split_space s) -> contains space p = false.
Proof.
  revert p. induction s as [|c s IH]; intros p; simpl.
  - intros [<-|[]]. reflexivity.
  - destruct (Ascii.eqb c space) eqn:Ec.
    + intros [<-|Hp]; [reflexivity|]. apply IH, Hp.
    + destruct (split_space s) as [|q qs] eqn:Es.
      * intros [<-|[]]. simpl. rewrite Ec. reflexivity.
      * intros [<-|Hp].
        -- simpl. rewrite Ec. apply IH. left. reflexivity.
        -- apply IH. right. exact Hp.
Qed.

(** X10: every class token taken from a class attribute value is a
    non-empty string, contains no space, and is not made of white space
    only. *)
Theorem class_tokens_wellformed (raw : option string) (t : string) :
  In t (class_tokens raw) ->
  t <> EmptyString /\ contains space t = false /\ only_space t = false.
Proof.
  unfold class_tokens, filter. intros Ht. apply filter_In in Ht as [Hs Ho].
  apply negb_true_iff in Ho. split; [intros ->; discriminate|].
  split; [apply (split_space_no_space _ _ Hs)|exact Ho].
Qed.

Lemma class_tokens_wellformed_witness :
  In "btn"%string (class_tokens (Some " btn  card"%string))
  /\ ("btn"%string <> EmptyString /\ contains space "btn" = false /\ only_space "btn" = false).
Proof.
  assert (H : In "btn"%string (class_tokens (Some " btn  card"%string))) by (vm_compute; left; reflexivity).
  split; [exact H|]. exact (class_tokens_wellformed _ _ H).
Defined.

(** ** Class attribute tokenisation *)








End SiteperfFacts.
